(** * A shallow embedding of the offline cache engine of [src/lib/serviceworker.js]

    The service worker keeps three named caches ([assets-APP_VERSION],
    [pages], [images]), populates the asset cache at install, deletes
    stale caches at activate, trims caches on request and answers every
    intercepted request with one of three strategies.

    Modelling conventions.
    - A cache is the list of its entries in insertion order, keyed by the
      request URL (every cached request is a GET, so the URL is the
      request's identity).  The cache storage ([caches]) is the list of
      named caches in creation order; [caches.match] searches them in
      that order.
    - A network fetch, a timer or any other awaited promise is described
      by when it settles and how: [None] for a promise that never
      settles, [Some (t, s)] for one that settles at time [t] (ms after
      the handler started) with outcome [s].
    - Background work (the stale-while-revalidate refresh) is run to its
      end: the store of an outcome is the store once every promise the
      handler started has settled. *)

From Stdlib Require Import List String Ascii Bool Arith Lia.
Import ListNotations.
Set Warnings "-abstract-large-number".
Open Scope string_scope.
Open Scope list_scope.
Open Scope nat_scope.

(** ** Responses and the constants of the worker *)

Record response := mkResponse {
  status : nat;
  status_text : string;
  content_type : string;
  cache_control : option string;
  body : string
}.

Definition assetCacheName : string := "assets-APP_VERSION".
Definition pagesCacheName : string := "pages".
Definition imageCacheName : string := "images".
Definition maxPages : nat := 50.
Definition maxImages : nat := 100.
Definition timeout : nat := 5000.
Definition cacheList : list string := [assetCacheName; pagesCacheName; imageCacheName].

(** The inline SVG of the source, abbreviated: only its identity matters. *)
Definition placeholderImage : string := "<svg xmlns=http://www.w3.org/2000/svg>...</svg>".

(** [new Response(placeholderImage, {headers: {"Content-Type": "image/svg+xml", "Cache-Control": "no-store"}})] *)
Definition placeholder_response : response :=
  mkResponse 200 EmptyString "image/svg+xml" (Some "no-store") placeholderImage.

(** [new Response("Offline", {status: 503, statusText: "Service Unavailable", ...})] *)
Definition offline_503 : response :=
  mkResponse 503 "Service Unavailable" "text/plain" None "Offline".

(** [new Response("Network error", {status: 503, statusText: "Service Unavailable", ...})] *)
Definition network_error_503 : response :=
  mkResponse 503 "Service Unavailable" "text/plain" None "Network error".

(** [Response.ok]: a status in 200..299 *)
Definition resp_ok (r : response) : bool := (200 <=? status r) && (status r <=? 299).

(** ** Strings: the tests the worker applies to URLs *)

(** [s.startsWith(p)] *)
Fixpoint starts_with (p s : string) : bool :=
  match p, s with
  | EmptyString, _ => true
  | String a p', String b s' => Ascii.eqb a b && starts_with p' s'
  | String _ _, EmptyString => false
  end.

(** An unanchored regular-expression test: does [f] accept some suffix of [s]? *)
Fixpoint any_suffix (f : string -> bool) (s : string) : bool :=
  f s || match s with
         | EmptyString => false
         | String _ s' => any_suffix f s'
         end.

(** [s.includes(p)] *)
Definition includes (s p : string) : bool := any_suffix (starts_with p) s.

(** [[a-f0-9]] *)
Definition is_hex (c : ascii) : bool :=
  let n := nat_of_ascii c in
  ((48 <=? n) && (n <=? 57)) || ((97 <=? n) && (n <=? 102)).

(** [[a-f0-9]+\.(js|css)$], read from the current position; [seen] records
    that one hex digit was already consumed.  A dot is no hex digit, so
    the greedy [+] never has to backtrack. *)
Fixpoint hex_then_ext (seen : bool) (s : string) : bool :=
  match s with
  | EmptyString => false
  | String c rest =>
      if is_hex c then hex_then_ext true rest
      else seen && Ascii.eqb c "." && (String.eqb rest "js" || String.eqb rest "css")
  end.

Definition hashed_prefix : string := "/assets/app-".

(** [/\/assets\/app-[a-f0-9]+\.(js|css)$/] at the current position *)
Definition hashed_here (s : string) : bool :=
  starts_with hashed_prefix s && hex_then_ext false (substring (String.length hashed_prefix) (String.length s) s).

(** [isHashedAsset(url)]: [/\/assets\/app-[a-f0-9]+\.(js|css)$/.test(url)] *)
Definition isHashedAsset (url : string) : bool := any_suffix hashed_here url.

Definition image_exts : list string := ["jpg"; "jpeg"; "png"; "gif"; "svg"; "webp"].

(** [\.(jpe?g|png|gif|svg|webp)] at the current position *)
Definition image_here (s : string) : bool :=
  existsb (fun e => starts_with (String "." e) s) image_exts.

(** [/\.(jpe?g|png|gif|svg|webp)/.test(request.url)], not anchored *)
Definition is_image_url (url : string) : bool := any_suffix image_here url.

(** [str.replace(pat, rep)] with a string pattern: the first occurrence only. *)
Fixpoint replace_first (pat rep s : string) : string :=
  if starts_with pat s then (rep ++ substring (String.length pat) (String.length s) s)%string
  else match s with
       | EmptyString => EmptyString
       | String c s' => String c (replace_first pat rep s')
       end.

(** ** The cache storage ([caches]) *)

Definition key := string.
Definition cache := list (key * response).
Definition store := list (string * cache).

(** the first cache of that name *)
Fixpoint lookup_cache (st : store) (name : string) : option cache :=
  match st with
  | [] => None
  | (n, c) :: st' => if String.eqb n name then Some c else lookup_cache st' name
  end.

(** the entries of a cache, an absent cache holding none *)
Definition cache_entries (st : store) (name : string) : cache :=
  match lookup_cache st name with Some c => c | None => [] end.

(** [caches.open(name)]: creates the cache when it is absent *)
Definition open_cache (st : store) (name : string) : store :=
  match lookup_cache st name with
  | Some _ => st
  | None => st ++ [(name, [])]
  end.

Definition update_cache (st : store) (name : string) (f : cache -> cache) : store :=
  map (fun nc => if String.eqb (fst nc) name then (fst nc, f (snd nc)) else nc) st.

Definition remove_key (k : key) (c : cache) : cache :=
  filter (fun e => negb (String.eqb (fst e) k)) c.

(** [cache.keys()] *)
Definition cache_keys (st : store) (name : string) : list key :=
  map fst (cache_entries st name).

(** [cache.put(request, response)]: the old entry for the key is removed and
    the new one appended, so the key becomes the most recently inserted. *)
Definition cache_put (st : store) (name : string) (k : key) (r : response) : store :=
  update_cache st name (fun c => remove_key k c ++ [(k, r)]).

(** [cache.delete(request)] *)
Definition cache_delete (st : store) (name : string) (k : key) : store :=
  update_cache st name (remove_key k).

(** [caches.match(request)]: the first cache, in creation order, holding the key *)
Fixpoint cache_match (st : store) (k : key) : option response :=
  match st with
  | [] => None
  | (_, c) :: st' =>
      match find (fun e => String.eqb (fst e) k) c with
      | Some (_, r) => Some r
      | None => cache_match st' k
      end
  end.

(** [caches.keys()] *)
Definition cache_names (st : store) : list string := map fst st.

(** [caches.delete(name)] *)
Definition delete_cache (st : store) (name : string) : store :=
  filter (fun nc => negb (String.eqb (fst nc) name)) st.

(** ** [trimCache(cacheName, maxItems)]

    The source recurses after each deletion; the recursion is given as
    fuel [trim_loop] counts down, and [trimCache] supplies one more unit
    than the cache has entries.  [None] would mean the fuel ran out: the
    theorems below show it never does.  The trace lists the deleted keys
    in deletion order. *)
Fixpoint trim_loop (fuel : nat) (st : store) (cacheName : string) (maxItems : nat)
    (deleted : list key) : option (store * list key) :=
  match fuel with
  | O => None
  | S fuel' =>
      let st1 := open_cache st cacheName in
      let keys := cache_keys st1 cacheName in
      if maxItems <? List.length keys then
        match hd_error keys with
        | Some k0 => trim_loop fuel' (cache_delete st1 cacheName k0) cacheName maxItems (deleted ++ [k0])
        | None => Some (st1, deleted)
        end
      else Some (st1, deleted)
  end.

Definition trimCache (st : store) (cacheName : string) (maxItems : nat) : option (store * list key) :=
  trim_loop (S (List.length (cache_keys st cacheName))) st cacheName maxItems [].

(** the [message] listener: [{command: "trimCaches"}] trims [pages], then [images] *)
Definition handle_message (st : store) (command : string) : option store :=
  if String.eqb command "trimCaches" then
    match trimCache st pagesCacheName maxPages with
    | Some (st1, _) => option_map fst (trimCache st1 imageCacheName maxImages)
    | None => None
    end
  else Some st.

(** ** Activation *)

(** [cacheList.has(key)] *)
Definition valid_name (n : string) : bool := existsb (String.eqb n) cacheList.

(** [clearOldCaches()]: every cache name outside [cacheList] is deleted *)
Definition clearOldCaches (st : store) : store * list string :=
  let stale := filter (fun k => negb (valid_name k)) (cache_names st) in
  (fold_left delete_cache stale st, stale).

Record message := mkMessage { command : string; version : string }.

Inductive event :=
| EvDeleteCache (name : string)
| EvClaim
| EvPost (client : string) (m : message).

(** [notifyClients()]: one [postMessage] per client of [clients.matchAll] *)
Definition notifyClients (clients : list string) : list event :=
  let version := replace_first "assets-" EmptyString assetCacheName in
  map (fun c => EvPost c (mkMessage "SW_UPDATED" version)) clients.

(** the [activate] listener: [await clearOldCaches(); await clients.claim();
    await notifyClients();]. [clients] is what [clients.matchAll] returns. *)
Definition activate (st : store) (clients : list string) : store * list event :=
  let (st1, stale) := clearOldCaches st in
  (st1, map EvDeleteCache stale ++ [EvClaim] ++ notifyClients clients).

(** ** Installation *)

(** The network as installation sees it: the response [fetch(url)] resolves
    to, or [None] when the fetch rejects. *)
Definition fetch_fn := string -> option response.

(** the fetches [cache.addAll] performs; it rejects when one fetch rejects or
    answers with a status outside 200..299 *)
Fixpoint fetch_all (fetchf : fetch_fn) (urls : list string) : option (list (key * response)) :=
  match urls with
  | [] => Some []
  | u :: us =>
      match fetchf u with
      | Some r =>
          if resp_ok r then
            match fetch_all fetchf us with
            | Some rs => Some ((u, r) :: rs)
            | None => None
            end
          else None
      | None => None
      end
  end.

(** [cache.addAll(urls)]: all entries are stored, or none and it rejects *)
Definition addAll (st : store) (name : string) (fetchf : fetch_fn) (urls : list string) : option store :=
  match fetch_all fetchf urls with
  | Some rs => Some (fold_left (fun s kr => cache_put s name (fst kr) (snd kr)) rs st)
  | None => None
  end.

Definition optional_assets : list string := ["/app.webmanifest"].
Definition required_assets : list string := ["APP_CSS_PATH"; "APP_JS_PATH"; "/offline"].

(** [updateAssetCache()]: the result flag is [true] when the function
    returns the cache and [false] when its [catch] logged an error and it
    returned [undefined]; its promise resolves in both cases.  The
    un-awaited [addAll] of the optional assets is run to its end. *)
Definition updateAssetCache (st : store) (fetchf : fetch_fn) : store * bool :=
  let st1 := open_cache st assetCacheName in
  let st2 := match addAll st1 assetCacheName fetchf optional_assets with
             | Some s => s
             | None => st1
             end in
  match addAll st2 assetCacheName fetchf required_assets with
  | Some s => (s, true)
  | None => (st2, false)
  end.

(** [cacheClients()]: the URLs of every client go into [pages]; a failure is logged *)
Definition cacheClients (st : store) (fetchf : fetch_fn) (clients : list string) : store * bool :=
  let pages := clients in
  let st1 := open_cache st pagesCacheName in
  match addAll st1 pagesCacheName fetchf pages with
  | Some s => (s, true)
  | None => (st1, false)
  end.

(** how the promise handed to [event.waitUntil] settles *)
Inductive install_result := InstallResolved | InstallRejected.

(** the [install] listener: [await updateAssetCache(); await cacheClients();
    skipWaiting();] *)
Definition install (st : store) (fetchf : fetch_fn) (clients : list string) : install_result * store :=
  let (st1, _) := updateAssetCache st fetchf in
  let (st2, _) := cacheClients st1 fetchf clients in
  (InstallResolved, st2).

(** ** Interception *)

(** [request.url], [new URL(request.url).origin], [request.method],
    [request.mode] and [request.headers.get("Accept")] *)
Record request := mkRequest {
  req_url : string;
  req_origin : string;
  req_method : string;
  req_mode : string;
  req_accept : option string
}.

(** how a promise of a response settles *)
Inductive settle := Fulfilled (r : response) | Failed.

(** [None]: never settles; [Some (t, s)]: settles at time [t] as [s] *)
Definition promise := option (nat * settle).

(** [Promise.race([a, b])]: the first to settle; on a tie the first listed *)
Definition race (a b : promise) : promise :=
  match a, b with
  | Some (ta, sa), Some (tb, sb) => if ta <=? tb then Some (ta, sa) else Some (tb, sb)
  | Some x, None => Some x
  | None, y => y
  end.

(** what [event.respondWith] receives, and when *)
Inductive result :=
| Bypass
| Responded (t : nat) (r : response)
| Pending.

(** [out_fetches]: network requests the handler makes; [out_timers]: the
    [setTimeout] delays it starts; [out_store]: the cache storage once
    all its work has settled *)
Record outcome := mkOutcome {
  out_result : result;
  out_fetches : nat;
  out_timers : list nat;
  out_store : store
}.

(** The navigation branch.  [net] is how [networkFetch] settles: the
    navigation preload response when the browser started one, otherwise
    [fetch(request)]; either way one network request.  [put_ok] says
    whether opening [pages] and the [put] succeed. *)
Definition navigation_strategy (st : store) (req : request) (net : promise) (put_ok : bool) : outcome :=
  let cachedResponse := cache_match st (req_url req) in
  let timer : promise := Some (timeout, Failed) in
  let timers := match cachedResponse with Some _ => [timeout] | None => [] end in
  let responseFromNetwork :=
    match cachedResponse with
    | Some _ => race net timer
    | None => net
    end in
  match responseFromNetwork with
  | None => mkOutcome Pending 1 timers st
  | Some (t, Fulfilled r) =>
      (* NETWORK succeeded — cache and serve *)
      let st' := if put_ok then cache_put (open_cache st pagesCacheName) pagesCacheName (req_url req) r
                 else st in
      mkOutcome (Responded t r) 1 timers st'
  | Some (t, Failed) =>
      (* NETWORK failed or timed out — fall back to cache or offline *)
      let fallback :=
        match cachedResponse with
        | Some c => c
        | None =>
            match cache_match st "/offline" with
            | Some o => o
            | None => offline_503
            end
        end in
      mkOutcome (Responded t fallback) 1 timers st
  end.

(** The hashed-asset branch: cache first.  The [put] shares the [try] of
    the fetch, so its failure lands in the same [catch]. *)
Definition hashed_asset_strategy (st : store) (req : request) (net : promise) (put_ok : bool) : outcome :=
  match cache_match st (req_url req) with
  | Some responseFromCache => mkOutcome (Responded 0 responseFromCache) 0 [] st
  | None =>
      match net with
      | None => mkOutcome Pending 1 [] st
      | Some (t, Fulfilled responseFromFetch) =>
          if put_ok then
            mkOutcome (Responded t responseFromFetch) 1 []
              (cache_put (open_cache st assetCacheName) assetCacheName (req_url req) responseFromFetch)
          else mkOutcome (Responded t network_error_503) 1 [] st
      | Some (t, Failed) => mkOutcome (Responded t network_error_503) 1 [] st
      end
  end.

(** The generic branch: stale-while-revalidate.  [fetchPromise] resolves
    to the response ([Some r]) after storing image copies, or to [null]
    ([None]) when the fetch rejects. *)
Definition generic_strategy (st : store) (req : request) (net : promise) (put_ok : bool) : outcome :=
  let url := req_url req in
  let responseFromCache := cache_match st url in
  let fetch_store :=
    match net with
    | Some (_, Fulfilled r) =>
        if is_image_url url && put_ok
        then cache_put (open_cache st imageCacheName) imageCacheName url r
        else st
    | _ => st
    end in
  let fetchPromise : option (nat * option response) :=
    match net with
    | None => None
    | Some (t, Fulfilled r) => Some (t, Some r)
    | Some (t, Failed) => Some (t, None)
    end in
  match responseFromCache with
  | Some c => mkOutcome (Responded 0 c) 1 [] fetch_store
  | None =>
      match fetchPromise with
      | None => mkOutcome Pending 1 [] fetch_store
      | Some (t, Some r) => mkOutcome (Responded t r) 1 [] fetch_store
      | Some (t, None) =>
          if is_image_url url
          then mkOutcome (Responded t placeholder_response) 1 [] fetch_store
          else mkOutcome (Responded t network_error_503) 1 [] fetch_store
      end
  end.

Definition is_navigation (req : request) : bool :=
  String.eqb (req_mode req) "navigate"
  || includes (match req_accept req with Some a => a | None => EmptyString end) "text/html".

(** the [fetch] listener *)
Definition handle_fetch (self_origin : string) (st : store) (req : request) (net : promise) (put_ok : bool) : outcome :=
  if negb (String.eqb (req_origin req) self_origin) || negb (String.eqb (req_method req) "GET")
  then mkOutcome Bypass 0 [] st
  else if is_navigation req then navigation_strategy st req net put_ok
  else if isHashedAsset (req_url req) then hashed_asset_strategy st req net put_ok
  else generic_strategy st req net put_ok.

(** ** Sanity checks on concrete inputs *)

Example isHashedAsset_ex1 : isHashedAsset "https://x.org/assets/app-a1b2c3.js" = true.
Proof. reflexivity. Qed.
Example isHashedAsset_ex2 : isHashedAsset "/assets/app-a1b2c3.js?v=1" = false.
Proof. reflexivity. Qed.
Example isHashedAsset_ex3 : isHashedAsset "/assets/app-.css" = false.
Proof. reflexivity. Qed.
Example is_image_url_ex : is_image_url "/media/photo.png?w=200" = true /\ is_image_url "/a.jpegx" = true /\ is_image_url "/notes.txt" = false.
Proof. split; [|split]; reflexivity. Qed.
Example version_ex : replace_first "assets-" EmptyString assetCacheName = "APP_VERSION".
Proof. reflexivity. Qed.

(** ** Lemmas on the cache storage *)

Lemma lookup_cache_app (l1 l2 : store) (m : string) :
  lookup_cache (l1 ++ l2) m =
  match lookup_cache l1 m with Some c => Some c | None => lookup_cache l2 m end.
Proof.
  induction l1 as [|[n c] l1 IH]; simpl; [reflexivity|].
  destruct (String.eqb n m); [reflexivity | exact IH].
Qed.

Lemma lookup_update_cache (st : store) (n m : string) (f : cache -> cache) :
  lookup_cache (update_cache st n f) m =
  if String.eqb m n then option_map f (lookup_cache st m) else lookup_cache st m.
Proof.
  induction st as [|[k c] st IH]; simpl.
  - destruct (String.eqb m n); reflexivity.
  - destruct (String.eqb k n) eqn:Ekn; simpl.
    + apply String.eqb_eq in Ekn; subst k.
      destruct (String.eqb n m) eqn:Enm.
      * apply String.eqb_eq in Enm; subst m. rewrite String.eqb_refl. reflexivity.
      * destruct (String.eqb m n) eqn:Emn; [|exact IH].
        apply String.eqb_eq in Emn; subst m. rewrite String.eqb_refl in Enm. discriminate.
    + destruct (String.eqb k m) eqn:Ekm; [|exact IH].
      apply String.eqb_eq in Ekm; subst k.
      destruct (String.eqb m n) eqn:Emn; [congruence | reflexivity].
Qed.

Lemma entries_open_cache (st : store) (n m : string) :
  cache_entries (open_cache st n) m = cache_entries st m.
Proof.
  unfold open_cache, cache_entries.
  destruct (lookup_cache st n) eqn:E; [reflexivity|].
  rewrite lookup_cache_app. destruct (lookup_cache st m) eqn:Em; [reflexivity|].
  simpl. destruct (String.eqb n m) eqn:Enm; [|reflexivity].
  apply String.eqb_eq in Enm; subst. reflexivity.
Qed.

Lemma lookup_open_cache_same (st : store) (n : string) :
  lookup_cache (open_cache st n) n = Some (cache_entries st n).
Proof.
  unfold open_cache, cache_entries.
  destruct (lookup_cache st n) eqn:E; [exact E|].
  rewrite lookup_cache_app, E. simpl. rewrite String.eqb_refl. reflexivity.
Qed.

Lemma entries_update_same (st : store) (n : string) (f : cache -> cache) :
  f [] = [] -> cache_entries (update_cache st n f) n = f (cache_entries st n).
Proof.
  intros Hf. unfold cache_entries. rewrite lookup_update_cache, String.eqb_refl.
  destruct (lookup_cache st n); simpl; congruence.
Qed.

Lemma entries_update_other (st : store) (n m : string) (f : cache -> cache) :
  m <> n -> cache_entries (update_cache st n f) m = cache_entries st m.
Proof.
  intros Hmn. unfold cache_entries. rewrite lookup_update_cache.
  destruct (String.eqb m n) eqn:E; [apply String.eqb_eq in E; contradiction | reflexivity].
Qed.

Lemma entries_delete_same (st : store) (n : string) (k : key) :
  cache_entries (cache_delete st n k) n = remove_key k (cache_entries st n).
Proof. apply entries_update_same. reflexivity. Qed.

Lemma remove_key_head (k : key) (r : response) (rest : cache) :
  ~ In k (map fst rest) -> remove_key k ((k, r) :: rest) = rest.
Proof.
  intros Hk. unfold remove_key. simpl. rewrite String.eqb_refl. simpl.
  induction rest as [|[k' r'] rest IH]; [reflexivity|].
  simpl in *. destruct (String.eqb k' k) eqn:E.
  - apply String.eqb_eq in E. subst. exfalso. apply Hk. now left.
  - simpl. f_equal. apply IH. intros H. apply Hk. now right.
Qed.


(** one run of the trimming recursion that has [d] entries to delete *)
Lemma trim_loop_deletes_oldest (d : nat) :
  forall fuel st name maxItems deleted c,
    cache_entries st name = c ->
    NoDup (map fst c) ->
    List.length c = maxItems + d ->
    d < fuel ->
    exists st',
      trim_loop fuel st name maxItems deleted = Some (st', deleted ++ map fst (firstn d c)) /\
      cache_entries st' name = skipn d c /\
      (forall m, m <> name -> cache_entries st' m = cache_entries st m).
Proof.
  induction d as [|d IH]; intros fuel st name maxItems deleted c Hc Hnd Hlen Hfuel;
    (destruct fuel as [|fuel]; [lia|]); simpl;
    unfold cache_keys; rewrite entries_open_cache, Hc, length_map.
  - replace (maxItems <? List.length c) with false by (symmetry; apply Nat.ltb_ge; lia).
    exists (open_cache st name). rewrite app_nil_r. repeat split.
    + now rewrite entries_open_cache.
    + intros m _. apply entries_open_cache.
  - replace (maxItems <? List.length c) with true by (symmetry; apply Nat.ltb_lt; lia).
    destruct c as [|[k r] rest]; simpl in Hlen; [lia|]. simpl.
    inversion Hnd as [|? ? Hk Hnd']; subst.
    destruct (IH fuel (cache_delete (open_cache st name) name k) name maxItems (deleted ++ [k]) rest)
      as [st' [Hrun [Hsame Hother]]].
    + rewrite entries_delete_same, entries_open_cache, Hc. now apply remove_key_head.
    + exact Hnd'.
    + lia.
    + lia.
    + exists st'. split; [|split].
      * rewrite Hrun, <- app_assoc. reflexivity.
      * exact Hsame.
      * intros m Hm. rewrite Hother by exact Hm.
        unfold cache_delete. rewrite entries_update_other by exact Hm.
        apply entries_open_cache.
Qed.

(** ** Trimming *)

(** C4: on a cache of [M > maxItems] entries with distinct keys, [trimCache]
    terminates, deletes the [M - maxItems] oldest-inserted keys one at a
    time, first key first, and leaves exactly the [maxItems] most recently
    inserted entries; the other caches are untouched. *)
Theorem trimCache_keeps_newest (st : store) (cacheName : string) (maxItems : nat)
  (Hkeys : NoDup (cache_keys st cacheName))
  (Hover : maxItems < List.length (cache_entries st cacheName)) :
  let c := cache_entries st cacheName in
  let d := List.length c - maxItems in
  exists st',
    trimCache st cacheName maxItems = Some (st', map fst (firstn d c)) /\
    cache_entries st' cacheName = skipn d c /\
    List.length (cache_entries st' cacheName) = maxItems /\
    (forall m, m <> cacheName -> cache_entries st' m = cache_entries st m).
Proof.
  intros c d.
  assert (Hc : cache_entries st cacheName = c) by reflexivity.
  assert (Hnd : NoDup (map fst c)) by exact Hkeys.
  assert (Hlen : List.length c = maxItems + d) by (unfold d, c; lia).
  assert (Hfuel : d < S (List.length (cache_keys st cacheName)))
    by (unfold cache_keys; rewrite length_map; unfold d, c; lia).
  destruct (trim_loop_deletes_oldest d _ st cacheName maxItems [] c Hc Hnd Hlen Hfuel)
    as [st' [Hrun [Hsame Hother]]].
  exists st'. split; [exact Hrun | split; [exact Hsame | split; [| exact Hother]]].
  rewrite Hsame, length_skipn. lia.
Qed.

Lemma trimCache_keeps_newest_witness :
  let st := [("pages", [("/a", offline_503); ("/b", offline_503); ("/c", offline_503)])] in
  NoDup (cache_keys st "pages") /\ 1 < List.length (cache_entries st "pages") /\
  exists st',
    trimCache st "pages" 1 = Some (st', ["/a"; "/b"]) /\
    cache_entries st' "pages" = [("/c", offline_503)] /\
    List.length (cache_entries st' "pages") = 1 /\
    (forall m, m <> "pages" -> cache_entries st' m = cache_entries st m).
Proof.
  intros st.
  assert (Hnd : NoDup (cache_keys st "pages")).
  { vm_compute. repeat constructor; simpl; intuition discriminate. }
  assert (Hlen : 1 < List.length (cache_entries st "pages")) by (vm_compute; lia).
  split; [exact Hnd | split; [exact Hlen |]].
  exact (trimCache_keeps_newest st "pages" 1 Hnd Hlen).
Defined.

(** C9: when a cache holds at most [maxItems] entries, [trimCache] deletes
    nothing and every cache keeps its entries (an absent cache is only
    created, empty). *)
Theorem trimCache_within_bound (st : store) (cacheName : string) (maxItems : nat)
  (Hle : List.length (cache_entries st cacheName) <= maxItems) :
  trimCache st cacheName maxItems = Some (open_cache st cacheName, []) /\
  (forall m, cache_entries (open_cache st cacheName) m = cache_entries st m).
Proof.
  split.
  - unfold trimCache. simpl. unfold cache_keys.
    rewrite entries_open_cache, length_map.
    replace (maxItems <? List.length (cache_entries st cacheName)) with false
      by (symmetry; apply Nat.ltb_ge; exact Hle).
    reflexivity.
  - intros m. apply entries_open_cache.
Qed.

Lemma trimCache_within_bound_witness :
  let st := [("images", [("/x.png", placeholder_response)])] in
  List.length (cache_entries st "images") <= maxImages /\
  trimCache st "images" maxImages = Some (open_cache st "images", []) /\
  (forall m, cache_entries (open_cache st "images") m = cache_entries st m).
Proof.
  intros st.
  assert (H : List.length (cache_entries st "images") <= maxImages) by (vm_compute; lia).
  split; [exact H | exact (trimCache_within_bound st "images" maxImages H)].
Defined.

(** ** Activation *)

Lemma names_delete_cache (st : store) (x n : string) :
  In n (cache_names (delete_cache st x)) <-> In n (cache_names st) /\ n <> x.
Proof.
  induction st as [|[k c] st IH]; simpl; [tauto|].
  destruct (String.eqb k x) eqn:E; simpl.
  - apply String.eqb_eq in E; subst k. rewrite IH. split.
    + intros [H1 H2]. auto.
    + intros [[H1|H1] H2]; [congruence | auto].
  - rewrite IH. split.
    + intros [H|[H1 H2]]; [subst; split; [now left|] | split; [now right | exact H2]].
      intros ->. rewrite String.eqb_refl in E. discriminate.
    + intros [[H1|H1] H2]; [now left | right; auto].
Qed.

Lemma lookup_delete_cache (st : store) (x n : string) :
  n <> x -> lookup_cache (delete_cache st x) n = lookup_cache st n.
Proof.
  intros Hn. induction st as [|[k c] st IH]; simpl; [reflexivity|].
  destruct (String.eqb k x) eqn:E; simpl.
  - apply String.eqb_eq in E; subst k.
    destruct (String.eqb x n) eqn:E'; [apply String.eqb_eq in E'; congruence | exact IH].
  - rewrite IH. reflexivity.
Qed.

Lemma names_fold_delete (l : list string) :
  forall st n, In n (cache_names (fold_left delete_cache l st)) <-> In n (cache_names st) /\ ~ In n l.
Proof.
  induction l as [|x l IH]; intros st n; simpl.
  - tauto.
  - rewrite IH, names_delete_cache. intuition.
Qed.

Lemma lookup_fold_delete (l : list string) :
  forall st n, ~ In n l -> lookup_cache (fold_left delete_cache l st) n = lookup_cache st n.
Proof.
  induction l as [|x l IH]; intros st n Hn; simpl; [reflexivity|].
  rewrite IH by (intros H; apply Hn; now right).
  apply lookup_delete_cache. intros ->. apply Hn. now left.
Qed.

(** C5, as the code has it: after activation a cache name exists exactly
    when it existed before and lies in [cacheList]; every other name is
    gone and the caches that stay keep their entries.  A valid name that
    did not exist is not created. *)
Theorem activate_cache_names (st : store) (clients : list string) :
  (forall n, In n (cache_names (fst (activate st clients))) <->
             In n (cache_names st) /\ valid_name n = true) /\
  (forall n, valid_name n = true -> lookup_cache (fst (activate st clients)) n = lookup_cache st n).
Proof.
  unfold activate, clearOldCaches. simpl. split.
  - intros n. rewrite names_fold_delete, filter_In.
    destruct (valid_name n); simpl; intuition congruence.
  - intros n Hv. apply lookup_fold_delete. rewrite filter_In, Hv. simpl. intuition discriminate.
Qed.

(** C5 as stated fails: a valid name ([images]) that never existed does not
    exist after activation. *)
Lemma activate_cache_names_not_exact :
  let st := [(assetCacheName, []); (pagesCacheName, []); ("assets-OLD", [])] in
  ~ (forall n, In n (cache_names (fst (activate st []))) <-> In n cacheList).
Proof.
  intros st H. specialize (H imageCacheName). vm_compute in H.
  destruct H as [_ H]. destruct (H (or_intror (or_intror (or_introl eq_refl)))) as [E|[E|[]]]; discriminate.
Qed.

(** there is no [postMessage] after the claim of the clients *)
Definition broadcast_before_claim (tr : list event) : Prop :=
  forall pre post, tr = pre ++ EvClaim :: post ->
  forall e, In e post -> match e with EvPost _ _ => False | _ => True end.

(** C8, as the code has it: the stale caches are deleted first, then the
    clients are claimed, then one [SW_UPDATED] message with version
    [APP_VERSION] is posted to each client. *)
Theorem activate_event_order (st : store) (clients : list string) :
  snd (activate st clients) =
    map EvDeleteCache (filter (fun k => negb (valid_name k)) (cache_names st)) ++
    [EvClaim] ++
    map (fun c => EvPost c (mkMessage "SW_UPDATED" "APP_VERSION")) clients.
Proof. reflexivity. Qed.

(** C8 as stated fails: the broadcast follows the claim. *)
Lemma activate_broadcast_after_claim :
  ~ broadcast_before_claim (snd (activate [] ["client-1"])).
Proof.
  unfold broadcast_before_claim. intros H.
  exact (H [] [EvPost "client-1" (mkMessage "SW_UPDATED" "APP_VERSION")] eq_refl _ (or_introl eq_refl)).
Qed.

(** ** Installation: a failing required asset *)

Definition ok200 : response := mkResponse 200 "OK" "text/plain" None "body".

(** the network of the failing example: every URL answers 200 except
    [/offline], whose fetch rejects *)
Definition offline_down : fetch_fn :=
  fun u => if String.eqb u "/offline" then None else Some ok200.

(** C1 at a failing input: with the fetch of the required [/offline]
    rejecting, [updateAssetCache] reports the failure through its [catch]
    and returns [undefined], [/offline] is not cached, and yet the install
    promise resolves. *)
Theorem install_resolves_despite_required_failure :
  let '(res, st) := install [] offline_down [] in
  snd (updateAssetCache [] offline_down) = false /\
  ~ In "/offline" (cache_keys st assetCacheName) /\
  res = InstallResolved.
Proof.
  vm_compute. split; [reflexivity | split; [| reflexivity]].
  intros H. repeat (destruct H as [H|H]; [discriminate|]). exact H.
Qed.

(** ** Interception: a failing cache write *)

Definition origin_ex : string := "https://indiekit.example".

Definition req_ex (url mode : string) : request :=
  mkRequest url origin_ex "GET" mode None.

(** C2 at a failing input: the network answers, the cache write fails.  The
    navigation branch and the generic branch still return the fetched
    response; the hashed-asset branch returns its synthesized 503. *)
Theorem cache_write_failure_paths :
  let net := Some (7, Fulfilled ok200) in
  out_result (handle_fetch origin_ex [] (req_ex "https://indiekit.example/posts" "navigate") net false)
    = Responded 7 ok200 /\
  out_result (handle_fetch origin_ex [] (req_ex "https://indiekit.example/media/a.png" "no-cors") net false)
    = Responded 7 ok200 /\
  out_result (handle_fetch origin_ex [] (req_ex "https://indiekit.example/assets/app-a1b2c3.js" "no-cors") net false)
    = Responded 7 network_error_503.
Proof. vm_compute. repeat split. Qed.

(** ** Interception: navigation *)

(** C3: the 5000 ms timer is started only when a cached entry exists, and
    the first of network and timer to settle decides; without a cached
    entry the handler answers exactly when the network fetch settles (or
    never, if it never settles), with no timer. *)
Theorem navigation_timeout_only_with_cache (st : store) (req : request) (net : promise) (put_ok : bool) :
  let o := navigation_strategy st req net put_ok in
  match cache_match st (req_url req) with
  | Some c =>
      out_timers o = [5000] /\
      match net with
      | Some (t, s) =>
          (t < 5000 -> out_result o = Responded t (match s with Fulfilled r => r | Failed => c end)) /\
          (5000 < t -> out_result o = Responded 5000 c /\ out_store o = st)
      | None => out_result o = Responded 5000 c /\ out_store o = st
      end
  | None =>
      out_timers o = [] /\
      match net with
      | None => out_result o = Pending
      | Some (t, s) =>
          exists r, out_result o = Responded t r /\ (forall r', s = Fulfilled r' -> r = r')
      end
  end.
Proof.
  unfold navigation_strategy. simpl.
  destruct (cache_match st (req_url req)) as [c|] eqn:Ec.
  - destruct net as [[t s]|]; simpl.
    + destruct (t <=? timeout) eqn:Et.
      * apply Nat.leb_le in Et. unfold timeout in Et.
        destruct s; simpl; (split; [reflexivity | split; intros Ht; [reflexivity | lia]]).
      * apply Nat.leb_gt in Et. unfold timeout in Et. simpl.
        split; [reflexivity | split; intros Ht; [lia | split; reflexivity]].
    + split; [reflexivity | split; reflexivity].
  - destruct net as [[t [r|]]|]; simpl; split; try reflexivity.
    + exists r. split; [reflexivity|]. intros r' H. congruence.
    + eexists. split; [reflexivity|]. intros r' H. discriminate.
Qed.

Lemma navigation_timeout_only_with_cache_witness :
  let st := [(pagesCacheName, [("https://indiekit.example/", ok200)])] in
  let req := req_ex "https://indiekit.example/" "navigate" in
  out_timers (navigation_strategy st req (Some (9000, Fulfilled offline_503)) true) = [5000] /\
  out_result (navigation_strategy st req (Some (9000, Fulfilled offline_503)) true) = Responded 5000 ok200.
Proof.
  intros st req.
  pose proof (navigation_timeout_only_with_cache st req (Some (9000, Fulfilled offline_503)) true) as H.
  simpl in H. destruct H as [Ht [_ H]]. split; [exact Ht|].
  apply H. apply Nat.ltb_lt. reflexivity.
Defined.

(** the fallback order of the navigation branch: the cached entry, else the
    precached [/offline], else the synthesized 503 *)
Definition navigation_fallback (st : store) (url : string) : response :=
  match cache_match st url with
  | Some c => c
  | None =>
      match cache_match st "/offline" with
      | Some o => o
      | None => offline_503
      end
  end.

(** C7: when the network fetch fails, or loses the race against the timer,
    the navigation branch answers with [navigation_fallback]: it always
    answers, never with a failure. *)
Theorem navigation_fallback_on_failure (st : store) (req : request) (net : promise) (put_ok : bool)
  (Hfail : (exists t, net = Some (t, Failed)) \/
           (cache_match st (req_url req) <> None /\
            (net = None \/ exists t s, net = Some (t, s) /\ timeout < t))) :
  exists t, out_result (navigation_strategy st req net put_ok) = Responded t (navigation_fallback st (req_url req)).
Proof.
  unfold navigation_strategy, navigation_fallback.
  destruct (cache_match st (req_url req)) as [c|] eqn:Ec.
  - destruct Hfail as [[t ->] | [_ [-> | [t [s [-> Ht]]]]]]; simpl.
    + destruct (t <=? timeout); eexists; reflexivity.
    + eexists; reflexivity.
    + replace (t <=? timeout) with false by (symmetry; apply Nat.leb_gt; exact Ht).
      eexists; reflexivity.
  - destruct Hfail as [[t ->] | [Hc _]]; [|contradiction].
    simpl. eexists; reflexivity.
Qed.

Lemma navigation_fallback_on_failure_witness :
  let st := [(assetCacheName, [("/offline", offline_503)])] in
  let req := req_ex "https://indiekit.example/notes" "navigate" in
  exists t, out_result (navigation_strategy st req (Some (40, Failed)) true) = Responded t (navigation_fallback st (req_url req)).
Proof.
  intros st req.
  apply (navigation_fallback_on_failure st req (Some (40, Failed)) true).
  left. exists 40. reflexivity.
Defined.

(** ** Interception: hashed assets *)

Lemma find_remove_key_put (k : key) (r : response) (c : cache) :
  find (fun e => String.eqb (fst e) k) (remove_key k c ++ [(k, r)]) = Some (k, r).
Proof.
  induction c as [|[k' r'] c IH]; simpl.
  - rewrite String.eqb_refl. reflexivity.
  - unfold remove_key in *. simpl. destruct (String.eqb k' k) eqn:E; simpl.
    + exact IH.
    + rewrite E. exact IH.
Qed.

Lemma match_put_fresh (st : store) (n k : key) (r : response) :
  cache_match st k = None ->
  cache_match (cache_put st n k r) k =
  if existsb (fun nc => String.eqb (fst nc) n) st then Some r else None.
Proof.
  induction st as [|[m c] st IH]; simpl; intros Hnone; [reflexivity|].
  destruct (find (fun e => String.eqb (fst e) k) c) as [[k0 r0]|] eqn:Ef; [discriminate|].
  destruct (String.eqb m n) eqn:Emn; simpl.
  - rewrite find_remove_key_put. reflexivity.
  - rewrite Ef. apply IH. exact Hnone.
Qed.

Lemma existsb_open_cache (st : store) (n : string) :
  existsb (fun nc => String.eqb (fst nc) n) (open_cache st n) = true.
Proof.
  pose proof (lookup_open_cache_same st n) as H.
  induction (open_cache st n) as [|[m c] l IH]; simpl in *; [discriminate|].
  destruct (String.eqb m n); [reflexivity | simpl; exact (IH H)].
Qed.

Lemma match_open_cache (st : store) (n k : key) :
  cache_match (open_cache st n) k = cache_match st k.
Proof.
  unfold open_cache. destruct (lookup_cache st n); [reflexivity|].
  induction st as [|[m c] st IH]; simpl; [reflexivity|].
  destruct (find (fun e => String.eqb (fst e) k) c) as [[]|]; [reflexivity | exact IH].
Qed.

(** C6, as the code has it: a same-origin GET request that is neither a
    navigation nor asks for HTML, whose URL is a hashed asset, is served
    from the cache with no network request when an entry exists; after a
    first request that missed, fetched and stored the response, a second
    such request is served that response with no network request. *)
Theorem hashed_asset_cache_first (self : string) (st : store) (req : request) (net : promise) (put_ok : bool)
  (Horigin : req_origin req = self) (Hget : req_method req = "GET")
  (Hnav : is_navigation req = false) (Hhash : isHashedAsset (req_url req) = true) :
  (forall c, cache_match st (req_url req) = Some c ->
     handle_fetch self st req net put_ok = mkOutcome (Responded 0 c) 0 [] st) /\
  (forall t r net2 put_ok2,
     cache_match st (req_url req) = None -> net = Some (t, Fulfilled r) -> put_ok = true ->
     let o := handle_fetch self st req net put_ok in
     out_result o = Responded t r /\
     handle_fetch self (out_store o) req net2 put_ok2 = mkOutcome (Responded 0 r) 0 [] (out_store o)).
Proof.
  assert (Hroute : forall st' net' put', handle_fetch self st' req net' put' = hashed_asset_strategy st' req net' put').
  { intros st' net' put'. unfold handle_fetch.
    rewrite Horigin, Hget, String.eqb_refl, Hnav, Hhash. reflexivity. }
  split.
  - intros c Hc. rewrite Hroute. unfold hashed_asset_strategy. rewrite Hc. reflexivity.
  - intros t r net2 put_ok2 Hnone -> ->. simpl.
    rewrite !Hroute. unfold hashed_asset_strategy. rewrite Hnone. simpl. split; [reflexivity|].
    rewrite match_put_fresh by (rewrite match_open_cache; exact Hnone).
    rewrite existsb_open_cache. reflexivity.
Qed.

Lemma hashed_asset_cache_first_witness :
  let req := req_ex "https://indiekit.example/assets/app-a1b2c3.js" "no-cors" in
  out_result (handle_fetch origin_ex [] req (Some (12, Fulfilled ok200)) true) = Responded 12 ok200 /\
  handle_fetch origin_ex (out_store (handle_fetch origin_ex [] req (Some (12, Fulfilled ok200)) true)) req None false
    = mkOutcome (Responded 0 ok200) 0 [] (out_store (handle_fetch origin_ex [] req (Some (12, Fulfilled ok200)) true)).
Proof.
  intros req.
  destruct (hashed_asset_cache_first origin_ex [] req (Some (12, Fulfilled ok200)) true
              eq_refl eq_refl eq_refl eq_refl) as [_ H].
  exact (H 12 ok200 None false eq_refl eq_refl eq_refl).
Defined.

(** C6 as stated fails: a navigation to a cached hashed-asset URL is routed
    to the navigation branch, which contacts the network. *)
Lemma hashed_url_navigation_contacts_network :
  ~ (forall self st req net put_ok c,
       isHashedAsset (req_url req) = true -> cache_match st (req_url req) = Some c ->
       out_fetches (handle_fetch self st req net put_ok) = 0).
Proof.
  intros H.
  pose (req := req_ex "https://indiekit.example/assets/app-a1b2c3.js" "navigate").
  pose (st := [(assetCacheName, [(req_url req, ok200)])]).
  specialize (H origin_ex st req (Some (30, Fulfilled ok200)) true ok200 eq_refl eq_refl).
  vm_compute in H. discriminate.
Qed.

(** ** Interception: the image test of the generic branch *)

Lemma starts_with_spec (p s : string) :
  starts_with p s = true <-> exists post, s = (p ++ post)%string.
Proof.
  revert s. induction p as [|a p IH]; intros s; simpl.
  - split; [intros _; exists s; reflexivity | reflexivity].
  - destruct s as [|b s].
    + split; [discriminate | intros [post H]; discriminate].
    + rewrite andb_true_iff, Ascii.eqb_eq, IH. split.
      * intros [-> [post ->]]. exists post. reflexivity.
      * intros [post H]. injection H as -> ->. split; [reflexivity | exists post; reflexivity].
Qed.

Lemma any_suffix_spec (f : string -> bool) (s : string) :
  any_suffix f s = true <-> exists pre suf, s = (pre ++ suf)%string /\ f suf = true.
Proof.
  induction s as [|c s IH]; simpl; rewrite orb_true_iff.
  - split.
    + intros [H|H]; [exists EmptyString, EmptyString; split; [reflexivity | exact H] | discriminate].
    + intros [pre [suf [E H]]]. destruct pre; [|discriminate]. simpl in E. subst suf. now left.
  - rewrite IH. split.
    + intros [H | [pre [suf [E H]]]].
      * exists EmptyString, (String c s). split; [reflexivity | exact H].
      * exists (String c pre), suf. split; [simpl; congruence | exact H].
    + intros [pre [suf [E H]]]. destruct pre as [|c' pre]; simpl in E.
      * subst suf. now left.
      * injection E as -> ->. right. exists pre, suf. split; [reflexivity | exact H].
Qed.

Lemma image_here_spec (s : string) :
  image_here s = true <-> exists e post, In e image_exts /\ s = String "." (e ++ post).
Proof.
  unfold image_here. rewrite existsb_exists. split.
  - intros [e [He Hs]]. apply starts_with_spec in Hs. destruct Hs as [post Hs].
    exists e, post. split; [exact He | exact Hs].
  - intros [e [post [He Hs]]]. exists e. split; [exact He|].
    apply starts_with_spec. exists post. exact Hs.
Qed.

(** C10: the image test is the unanchored regular expression: it holds as
    soon as [.jpg], [.jpeg], [.png], [.gif], [.svg] or [.webp] occurs
    anywhere in the URL.  The same test decides whether a fetched response
    is stored into [images] and whether a miss whose fetch fails gets the
    placeholder or the 503. *)
Theorem generic_image_test :
  (forall u, is_image_url u = true <->
     exists pre e post, In e image_exts /\ u = (pre ++ String "." (e ++ post))%string) /\
  (forall st req t r,
     out_store (generic_strategy st req (Some (t, Fulfilled r)) true) =
     if is_image_url (req_url req)
     then cache_put (open_cache st imageCacheName) imageCacheName (req_url req) r
     else st) /\
  (forall st req t put_ok,
     cache_match st (req_url req) = None ->
     out_result (generic_strategy st req (Some (t, Failed)) put_ok) =
     Responded t (if is_image_url (req_url req) then placeholder_response else network_error_503)).
Proof.
  split; [|split].
  - intros u. unfold is_image_url. rewrite any_suffix_spec. split.
    + intros [pre [suf [-> H]]]. apply image_here_spec in H. destruct H as [e [post [He ->]]].
      exists pre, e, post. split; [exact He | reflexivity].
    + intros [pre [e [post [He ->]]]]. exists pre, (String "." (e ++ post)).
      split; [reflexivity|]. apply image_here_spec. exists e, post. split; [exact He | reflexivity].
  - intros st req t r. unfold generic_strategy. rewrite andb_true_r.
    destruct (cache_match st (req_url req)); reflexivity.
  - intros st req t put_ok Hnone. unfold generic_strategy. rewrite Hnone.
    destruct (is_image_url (req_url req)); reflexivity.
Qed.

Lemma generic_image_test_witness :
  is_image_url "https://indiekit.example/media/a.png.txt" = true /\
  out_result (generic_strategy [] (req_ex "https://indiekit.example/media/a.png.txt" "no-cors") (Some (3, Failed)) true)
    = Responded 3 placeholder_response.
Proof.
  destruct generic_image_test as [Hspec [_ Hfail]].
  split.
  - apply Hspec. exists "https://indiekit.example/media/a", "png", ".txt". split; [simpl; tauto | reflexivity].
  - exact (Hfail [] (req_ex "https://indiekit.example/media/a.png.txt" "no-cors") 3 true eq_refl).
Defined.

(** * Further properties of the worker *)

(** ** Trimming keeps every cache within its bound *)

Lemma length_remove_key_head (k : key) (r : response) (rest : cache) :
  List.length (remove_key k ((k, r) :: rest)) <= List.length rest.
Proof.
  unfold remove_key. simpl. rewrite String.eqb_refl. simpl.
  apply filter_length_le.
Qed.

Lemma trim_loop_bounded (fuel : nat) :
  forall st name maxItems deleted,
    List.length (cache_entries st name) < fuel ->
    exists st' deleted',
      trim_loop fuel st name maxItems deleted = Some (st', deleted') /\
      List.length (cache_entries st' name) <= maxItems /\
      (forall m, m <> name -> cache_entries st' m = cache_entries st m).
Proof.
  induction fuel as [|fuel IH]; intros st name maxItems deleted Hfuel; [lia|].
  simpl. unfold cache_keys. rewrite entries_open_cache, length_map.
  destruct (maxItems <? List.length (cache_entries st name)) eqn:Elt.
  - apply Nat.ltb_lt in Elt.
    destruct (cache_entries st name) as [|[k r] rest] eqn:Ec; simpl in Elt; [lia|]. simpl.
    destruct (IH (cache_delete (open_cache st name) name k) name maxItems (deleted ++ [k]))
      as [st' [del' [Hrun [Hb Hother]]]].
    + rewrite entries_delete_same, entries_open_cache, Ec.
      pose proof (length_remove_key_head k r rest). simpl in Hfuel. lia.
    + exists st', del'. split; [exact Hrun | split; [exact Hb|]].
      intros m Hm. rewrite Hother by exact Hm.
      unfold cache_delete. rewrite entries_update_other by exact Hm. apply entries_open_cache.
  - apply Nat.ltb_ge in Elt.
    exists (open_cache st name), deleted. split; [reflexivity|].
    rewrite entries_open_cache. split; [exact Elt|]. intros m _. apply entries_open_cache.
Qed.

(** [trimCache] always finishes with at most [maxItems] entries in the
    trimmed cache, whatever its keys, and leaves the other caches alone. *)
Theorem trimCache_bounded (st : store) (cacheName : string) (maxItems : nat) :
  exists st' deleted,
    trimCache st cacheName maxItems = Some (st', deleted) /\
    List.length (cache_entries st' cacheName) <= maxItems /\
    (forall m, m <> cacheName -> cache_entries st' m = cache_entries st m).
Proof.
  unfold trimCache. apply trim_loop_bounded.
  unfold cache_keys. rewrite length_map. lia.
Qed.

(** The [trimCaches] message leaves at most 50 pages and 100 images and
    touches no other cache; any other message changes nothing. *)
Theorem handle_message_trims (st : store) (command : string) :
  if String.eqb command "trimCaches" then
    exists st', handle_message st command = Some st' /\
      List.length (cache_entries st' pagesCacheName) <= maxPages /\
      List.length (cache_entries st' imageCacheName) <= maxImages /\
      (forall m, m <> pagesCacheName -> m <> imageCacheName -> cache_entries st' m = cache_entries st m)
  else handle_message st command = Some st.
Proof.
  unfold handle_message. destruct (String.eqb command "trimCaches"); [|reflexivity].
  destruct (trimCache_bounded st pagesCacheName maxPages) as [st1 [d1 [H1 [B1 O1]]]].
  destruct (trimCache_bounded st1 imageCacheName maxImages) as [st2 [d2 [H2 [B2 O2]]]].
  rewrite H1, H2. exists st2. split; [reflexivity|].
  split; [rewrite O2 by discriminate; exact B1|]. split; [exact B2|].
  intros m Hp Hi. rewrite O2 by exact Hi. apply O1. exact Hp.
Qed.

(** ** Activation is idempotent *)

Lemma filter_all_false {A : Type} (f : A -> bool) (l : list A) :
  (forall x, In x l -> f x = false) -> filter f l = [].
Proof.
  induction l as [|x l IH]; intros H; simpl; [reflexivity|].
  rewrite H by (now left). apply IH. intros y Hy. apply H. now right.
Qed.

(** A second activation right after a first deletes no cache and leaves the
    storage as the first one left it: only the claim and the broadcast
    happen again. *)
Theorem activate_twice (st : store) (clients1 clients2 : list string) :
  let st1 := fst (activate st clients1) in
  activate st1 clients2 = (st1, [EvClaim] ++ notifyClients clients2).
Proof.
  intros st1. unfold activate at 1. unfold clearOldCaches.
  rewrite (filter_all_false _ (cache_names st1)); [reflexivity|].
  intros x Hx. unfold st1, activate, clearOldCaches in Hx. simpl in Hx.
  apply names_fold_delete in Hx. destruct Hx as [Hin Hnot].
  destruct (valid_name x) eqn:Ev; [reflexivity|].
  exfalso. apply Hnot. apply filter_In. rewrite Ev. split; [exact Hin | reflexivity].
Qed.

(** ** The hashed-asset pattern *)

Lemma substring_0_all (s : string) (m : nat) :
  String.length s <= m -> substring 0 m s = s.
Proof.
  revert m. induction s as [|c s IH]; intros m Hm.
  - destruct m; reflexivity.
  - destruct m as [|m]; simpl in Hm; [lia|]. simpl. rewrite IH by lia. reflexivity.
Qed.

Lemma string_length_app (p q : string) :
  String.length (p ++ q) = String.length p + String.length q.
Proof. induction p as [|c p IH]; simpl; [reflexivity | rewrite IH; reflexivity]. Qed.

Lemma substring_after_prefix (p post : string) (m : nat) :
  String.length post <= m -> substring (String.length p) m (p ++ post) = post.
Proof.
  intros Hm. induction p as [|c p IH]; simpl.
  - apply substring_0_all. exact Hm.
  - destruct m; exact IH.
Qed.

Lemma hex_then_ext_spec (s : string) :
  forall seen, hex_then_ext seen s = true <->
  exists h ext, (seen = true \/ h <> EmptyString) /\
                Forall (fun c => is_hex c = true) (list_ascii_of_string h) /\
                In ext ["js"; "css"] /\ s = (h ++ String "." ext)%string.
Proof.
  induction s as [|c rest IH]; intros seen; simpl.
  - split; [discriminate|]. intros [h [ext [_ [_ [_ E]]]]]. destruct h; discriminate.
  - destruct (is_hex c) eqn:Ehex.
    + rewrite IH. split.
      * intros [h [ext [_ [Hh [He ->]]]]]. exists (String c h), ext.
        split; [right; discriminate | split; [constructor; assumption | split; [exact He | reflexivity]]].
      * intros [h [ext [_ [Hh [He E]]]]]. destruct h as [|c' h]; simpl in E.
        -- injection E as -> _. discriminate.
        -- injection E as -> ->. inversion Hh; subst.
           exists h, ext. split; [now left | split; [assumption | split; [exact He | reflexivity]]].
    + rewrite !andb_true_iff, orb_true_iff, !String.eqb_eq, Ascii.eqb_eq. split.
      * intros [[-> ->] Hext]. exists EmptyString, rest.
        split; [now left | split; [constructor | split; [|reflexivity]]].
        simpl. destruct Hext as [-> | ->]; auto.
      * intros [h [ext [Hseen [Hh [He E]]]]]. destruct h as [|c' h]; simpl in E.
        -- injection E as -> ->. destruct Hseen as [-> | Hne]; [|contradiction].
           split; [split; reflexivity|]. simpl in He. intuition.
        -- injection E as -> _. inversion Hh; subst. congruence.
Qed.

(** [isHashedAsset] holds exactly for the URLs that end with
    [/assets/app-], a non-empty run of [0-9a-f], a dot and [js] or [css]:
    a query string or fragment after the extension, an upper-case digit or
    an empty hash makes it false. *)
Theorem isHashedAsset_spec (url : string) :
  isHashedAsset url = true <->
  exists pre h ext,
    h <> EmptyString /\
    Forall (fun c => is_hex c = true) (list_ascii_of_string h) /\
    In ext ["js"; "css"] /\
    url = (pre ++ "/assets/app-" ++ h ++ String "." ext)%string.
Proof.
  unfold isHashedAsset. rewrite any_suffix_spec. split.
  - intros [pre [suf [-> Hsuf]]]. unfold hashed_here in Hsuf.
    apply andb_true_iff in Hsuf. destruct Hsuf as [Hp Hrest].
    apply starts_with_spec in Hp. destruct Hp as [post ->].
    rewrite substring_after_prefix in Hrest
      by (rewrite !string_length_app; lia).
    apply hex_then_ext_spec in Hrest. destruct Hrest as [h [ext [Hne [Hh [He ->]]]]].
    destruct Hne as [Hf | Hne]; [discriminate|].
    exists pre, h, ext. repeat split; assumption.
  - intros [pre [h [ext [Hne [Hh [He ->]]]]]].
    exists pre, ("/assets/app-" ++ h ++ String "." ext)%string. split; [reflexivity|].
    unfold hashed_here. apply andb_true_iff. split.
    + apply starts_with_spec. exists (h ++ String "." ext)%string. reflexivity.
    + change ("/assets/app-" ++ h ++ String "." ext)%string
        with (hashed_prefix ++ (h ++ String "." ext))%string.
      rewrite substring_after_prefix by (rewrite !string_length_app; lia).
      apply hex_then_ext_spec. exists h, ext. repeat split; auto.
Qed.

Lemma isHashedAsset_spec_witness :
  isHashedAsset "https://indiekit.example/assets/app-a1b2c3.css" = true.
Proof.
  apply isHashedAsset_spec. exists "https://indiekit.example", "a1b2c3", "css".
  split; [discriminate|]. split; [repeat constructor|]. split; [simpl; tauto | reflexivity].
Defined.

(** ** What one interception may write *)







(** ** A stored copy serves later requests *)

Lemma match_after_put_open (st : store) (n k : key) (r : response) :
  cache_match st k = None -> cache_match (cache_put (open_cache st n) n k r) k = Some r.
Proof.
  intros Hnone. rewrite match_put_fresh by (rewrite match_open_cache; exact Hnone).
  rewrite existsb_open_cache. reflexivity.
Qed.

(** A page first fetched while online (no cached copy anywhere) is stored,
    and a later navigation to it whose network fails or never answers is
    served that stored copy. *)
Theorem navigation_serves_stored_copy (st : store) (req : request) (t : nat) (r : response)
    (net2 : promise) (put_ok2 : bool)
  (Hnone : cache_match st (req_url req) = None)
  (Hdown : net2 = None \/ exists t2, net2 = Some (t2, Failed)) :
  let o1 := navigation_strategy st req (Some (t, Fulfilled r)) true in
  out_result o1 = Responded t r /\
  exists t', out_result (navigation_strategy (out_store o1) req net2 put_ok2) = Responded t' r.
Proof.
  intros o1.
  assert (H1 : o1 = mkOutcome (Responded t r) 1 []
                      (cache_put (open_cache st pagesCacheName) pagesCacheName (req_url req) r)).
  { unfold o1, navigation_strategy. rewrite Hnone. reflexivity. }
  rewrite H1. simpl. split; [reflexivity|].
  unfold navigation_strategy. rewrite match_after_put_open by exact Hnone.
  destruct Hdown as [-> | [t2 ->]]; simpl.
  - eexists; reflexivity.
  - destruct (t2 <=? timeout); eexists; reflexivity.
Qed.

Lemma navigation_serves_stored_copy_witness :
  let req := req_ex "https://indiekit.example/notes/1" "navigate" in
  let o1 := navigation_strategy [] req (Some (20, Fulfilled ok200)) true in
  out_result o1 = Responded 20 ok200 /\
  exists t', out_result (navigation_strategy (out_store o1) req None false) = Responded t' ok200.
Proof.
  intros req. exact (navigation_serves_stored_copy [] req 20 ok200 None false eq_refl (or_introl eq_refl)).
Defined.



(** ** Installation: all required assets or none *)

(** the response a cache holds for a key *)
Definition cache_get (c : cache) (k : key) : option response :=
  match find (fun e => String.eqb (fst e) k) c with
  | Some (_, r) => Some r
  | None => None
  end.

Lemma fetch_all_some (f : fetch_fn) (urls : list string) (rs : list (key * response)) :
  fetch_all f urls = Some rs -> map fst rs = urls /\ Forall (fun kr => f (fst kr) = Some (snd kr)) rs.
Proof.
  revert rs. induction urls as [|u us IH]; intros rs H; simpl in H.
  - injection H as <-. split; constructor.
  - destruct (f u) as [r|] eqn:Ef; [|discriminate].
    destruct (resp_ok r); [|discriminate].
    destruct (fetch_all f us) as [rs'|]; [|discriminate].
    injection H as <-. destruct (IH rs' eq_refl) as [H1 H2].
    split; [simpl; f_equal; exact H1 | constructor; [exact Ef | exact H2]].
Qed.

Lemma fetch_all_succeeds (f : fetch_fn) (urls : list string) :
  (forall u, In u urls -> exists r, f u = Some r /\ resp_ok r = true) ->
  exists rs, fetch_all f urls = Some rs.
Proof.
  induction urls as [|u us IH]; intros H; simpl; [eexists; reflexivity|].
  destruct (H u (or_introl eq_refl)) as [r [-> Hok]]. rewrite Hok.
  destruct IH as [rs ->]; [intros v Hv; apply H; now right|]. eexists; reflexivity.
Qed.

Lemma fetch_all_fails (f : fetch_fn) (urls : list string) :
  (exists u, In u urls /\ (f u = None \/ exists r, f u = Some r /\ resp_ok r = false)) ->
  fetch_all f urls = None.
Proof.
  induction urls as [|v vs IH]; intros [u [Hu Hbad]]; [destruct Hu|]. simpl.
  destruct Hu as [<- | Hu].
  - destruct Hbad as [-> | [r [-> ->]]]; reflexivity.
  - destruct (f v) as [r|]; [|reflexivity]. destruct (resp_ok r); [|reflexivity].
    rewrite IH by (exists u; split; assumption). reflexivity.
Qed.

Lemma cache_get_put_same (c : cache) (k : key) (r : response) :
  cache_get (remove_key k c ++ [(k, r)]) k = Some r.
Proof. unfold cache_get. rewrite find_remove_key_put. reflexivity. Qed.

Lemma cache_get_put_other (c : cache) (k k' : key) (r : response) :
  k' <> k -> cache_get (remove_key k c ++ [(k, r)]) k' = cache_get c k'.
Proof.
  intros Hk. unfold cache_get, remove_key.
  induction c as [|[k0 r0] c IH]; simpl.
  - destruct (String.eqb k k') eqn:E; [apply String.eqb_eq in E; congruence | reflexivity].
  - destruct (String.eqb k0 k) eqn:E0; simpl.
    + apply String.eqb_eq in E0; subst k0.
      destruct (String.eqb k k') eqn:E; [apply String.eqb_eq in E; congruence | exact IH].
    + destruct (String.eqb k0 k'); [reflexivity | exact IH].
Qed.

(** the stores [addAll] leaves, as a sequence of [put]s into cache [n] *)
Definition put_all (st : store) (n : string) (rs : list (key * response)) : store :=
  fold_left (fun s kr => cache_put s n (fst kr) (snd kr)) rs st.

Lemma put_all_facts (rs : list (key * response)) :
  forall st n c, lookup_cache st n = Some c ->
    (exists c', lookup_cache (put_all st n rs) n = Some c') /\
    (forall k, ~ In k (map fst rs) -> cache_get (cache_entries (put_all st n rs) n) k = cache_get c k) /\
    (NoDup (map fst rs) -> forall kr, In kr rs -> cache_get (cache_entries (put_all st n rs) n) (fst kr) = Some (snd kr)) /\
    (forall m, m <> n -> cache_entries (put_all st n rs) m = cache_entries st m).
Proof.
  induction rs as [|[k r] rs IH]; intros st n c Hc; simpl.
  - split; [exists c; exact Hc|]. split; [intros k _; unfold cache_entries; rewrite Hc; reflexivity|].
    split; [intros _ kr []| intros m _; reflexivity].
  - assert (Hc' : lookup_cache (cache_put st n k r) n = Some (remove_key k c ++ [(k, r)])).
    { unfold cache_put. rewrite lookup_update_cache, String.eqb_refl, Hc. reflexivity. }
    destruct (IH (cache_put st n k r) n _ Hc') as [Hex [Hother [Hin Hm]]].
    split; [exact Hex|]. split; [|split].
    + intros k' Hk'. rewrite Hother by (intros H; apply Hk'; now right).
      apply cache_get_put_other. intros ->. apply Hk'. now left.
    + intros Hnd [k' r'] [E | Hkr].
      * injection E as -> ->. inversion Hnd; subst. simpl.
        rewrite Hother by assumption. apply cache_get_put_same.
      * inversion Hnd; subst. exact (Hin H2 (k', r') Hkr).
    + intros m Hmn. rewrite Hm by exact Hmn. unfold cache_put.
      apply entries_update_other. exact Hmn.
Qed.

Lemma addAll_put_all (st : store) (n : string) (f : fetch_fn) (urls : list string) :
  addAll st n f urls = match fetch_all f urls with Some rs => Some (put_all st n rs) | None => None end.
Proof. reflexivity. Qed.

Lemma cacheClients_assets (st : store) (f : fetch_fn) (clients : list string) :
  cache_entries (fst (cacheClients st f clients)) assetCacheName = cache_entries st assetCacheName.
Proof.
  unfold cacheClients. rewrite addAll_put_all.
  destruct (fetch_all f clients) as [rs|]; simpl; [|apply entries_open_cache].
  destruct (put_all_facts rs (open_cache st pagesCacheName) pagesCacheName _ (lookup_open_cache_same st pagesCacheName))
    as [_ [_ [_ Hm]]].
  rewrite Hm by discriminate. apply entries_open_cache.
Qed.

Lemma install_store (st : store) (f : fetch_fn) (clients : list string) :
  install st f clients = (InstallResolved, fst (cacheClients (fst (updateAssetCache st f)) f clients)).
Proof.
  unfold install. destruct (updateAssetCache st f) as [st1 b1]. simpl.
  destruct (cacheClients st1 f clients) as [st2 b2]. reflexivity.
Qed.

(** the asset cache after the optional manifest step of [updateAssetCache] *)
Lemma optional_step_assets (st : store) (f : fetch_fn) :
  let st1 := open_cache st assetCacheName in
  let st2 := match addAll st1 assetCacheName f optional_assets with Some s => s | None => st1 end in
  (exists c, lookup_cache st2 assetCacheName = Some c) /\
  (forall k, k <> "/app.webmanifest" ->
     cache_get (cache_entries st2 assetCacheName) k = cache_get (cache_entries st assetCacheName) k).
Proof.
  intros st1 st2. pose proof (lookup_open_cache_same st assetCacheName) as Hl.
  unfold st2. rewrite addAll_put_all. destruct (fetch_all f optional_assets) as [rs|] eqn:Ef.
  - destruct (put_all_facts rs st1 assetCacheName _ Hl) as [Hex [Hother _]].
    split; [exact Hex|]. intros k Hk. rewrite Hother; [reflexivity|].
    apply fetch_all_some in Ef. destruct Ef as [-> _]. simpl. intuition.
  - split; [eexists; exact Hl|]. intros k _. unfold st1. rewrite entries_open_cache. reflexivity.
Qed.

(** When every required asset ([APP_CSS_PATH], [APP_JS_PATH], [/offline])
    answers with a 2xx status, the asset cache holds each of them with the
    response fetched, whatever became of the optional manifest and of the
    client pages. *)
Theorem install_caches_required (st : store) (f : fetch_fn) (clients : list string)
  (Hok : forall u, In u required_assets -> exists r, f u = Some r /\ resp_ok r = true) :
  forall u, In u required_assets ->
    cache_get (cache_entries (snd (install st f clients)) assetCacheName) u = f u.
Proof.
  intros u Hu. rewrite install_store. simpl. rewrite cacheClients_assets.
  unfold updateAssetCache.
  destruct (optional_step_assets st f) as [[c Hc] _].
  set (st2 := match addAll (open_cache st assetCacheName) assetCacheName f optional_assets with
              | Some s => s | None => open_cache st assetCacheName end) in *.
  rewrite addAll_put_all. destruct (fetch_all_succeeds f required_assets Hok) as [rs Hrs].
  rewrite Hrs. simpl.
  destruct (fetch_all_some f required_assets rs Hrs) as [Hfst Hall].
  destruct (put_all_facts rs st2 assetCacheName c Hc) as [_ [_ [Hin _]]].
  rewrite <- Hfst in Hu. apply in_map_iff in Hu. destruct Hu as [[k r] [<- Hkr]].
  rewrite (Hin ltac:(rewrite Hfst; unfold required_assets; repeat constructor; simpl; intuition discriminate) _ Hkr).
  rewrite Forall_forall in Hall. symmetry. exact (Hall _ Hkr).
Qed.

Lemma install_caches_required_witness :
  cache_get (cache_entries (snd (install [] (fun _ => Some ok200) [])) assetCacheName) "/offline" = Some ok200.
Proof.
  apply (install_caches_required [] (fun _ => Some ok200) []).
  - intros u _. exists ok200. split; reflexivity.
  - simpl. tauto.
Defined.

(** When one required asset fails (its fetch rejects or its status is not
    2xx), none of the required assets is newly stored: for each of them the
    asset cache holds what it held before the install. *)
Theorem install_required_all_or_nothing (st : store) (f : fetch_fn) (clients : list string)
  (Hbad : exists u, In u required_assets /\ (f u = None \/ exists r, f u = Some r /\ resp_ok r = false)) :
  forall u, In u required_assets ->
    cache_get (cache_entries (snd (install st f clients)) assetCacheName) u =
    cache_get (cache_entries st assetCacheName) u.
Proof.
  intros u Hu. rewrite install_store. simpl. rewrite cacheClients_assets.
  unfold updateAssetCache.
  destruct (optional_step_assets st f) as [_ Hget].
  rewrite addAll_put_all, (fetch_all_fails f required_assets Hbad). simpl.
  apply Hget. intros ->. simpl in Hu. intuition discriminate.
Qed.

Lemma install_required_all_or_nothing_witness :
  cache_get (cache_entries (snd (install [] offline_down [])) assetCacheName) "APP_CSS_PATH" =
  cache_get (cache_entries [] assetCacheName) "APP_CSS_PATH".
Proof.
  apply (install_required_all_or_nothing [] offline_down []).
  - exists "/offline". split; [simpl; tauto | left; reflexivity].
  - simpl. tauto.
Defined.

(** * The media browser ([openMediaBrowser]) and the file input that opens it *)

Module MediaBrowser.

(** an item of the media endpoint: [item.url] and [item["media-type"]] *)
Record media_item := mkItem { item_url : string; item_media_type : option string }.

(** [item["media-type"] || ""] *)
Definition media_type_of (it : media_item) : string :=
  match item_media_type it with Some t => t | None => EmptyString end.

(** [getFilteredItems()] *)
Definition getFilteredItems (activeFilter : string) (allItems : list media_item) : list media_item :=
  if String.eqb activeFilter "all" then allItems
  else filter (fun it => String.eqb (media_type_of it) activeFilter) allItems.

Inductive grid_view :=
| GridItems (items : list media_item)
| GridError (text : string).

Record mb_state := mkState {
  allItems : list media_item;
  afterCursor : option string;
  activeFilter : string;
  grid : grid_view;
  emptyHidden : bool;
  loadMoreHidden : bool;
  loadingHidden : bool
}.

(** [renderGrid()]: the tiles of the filtered items; the empty notice is
    hidden when there is at least one *)
Definition renderGrid (s : mb_state) : mb_state :=
  let filtered := getFilteredItems (activeFilter s) (allItems s) in
  mkState (allItems s) (afterCursor s) (activeFilter s) (GridItems filtered)
          (0 <? List.length filtered) (loadMoreHidden s) (loadingHidden s).

(** the parsed body: [data.items] and [data.paging.after] ([None] when
    [paging] or [after] is absent) *)
Record media_data := mkData { data_items : option (list media_item); data_after : option string }.

Inductive media_json :=
| JsonOk (d : media_data)
| JsonError (message : string).

(** how [fetch(url.href, ...)] settles *)
Inductive media_response :=
| MediaNetError (message : string)
| MediaHttp (ok : bool) (statusText : string) (json : media_json).

(** [URLSearchParams.set(k, v)]: the first pair of key [k] gets the value
    and the later ones are removed; without one, the pair is appended *)
Fixpoint params_set (k v : string) (ps : list (string * string)) : list (string * string) :=
  match ps with
  | [] => [(k, v)]
  | (k', v') :: ps' =>
      if String.eqb k' k then (k, v) :: filter (fun p => negb (String.eqb (fst p) k)) ps'
      else (k', v') :: params_set k v ps'
  end.

(** [URLSearchParams.get(k)] *)
Fixpoint params_get (k : string) (ps : list (string * string)) : option string :=
  match ps with
  | [] => None
  | (k', v') :: ps' => if String.eqb k' k then Some v' else params_get k ps'
  end.

(** the query of the request [fetchMedia] sends; [endpoint_params] is the
    query of [new URL(endpoint, location.origin)] *)
Definition request_params (endpoint_params : list (string * string)) (afterCursor : option string) :
    list (string * string) :=
  let ps := params_set "limit" "20" (params_set "q" "source" endpoint_params) in
  match afterCursor with
  | Some c => if String.eqb c EmptyString then ps else params_set "after" c ps
  | None => ps
  end.

(** [data.paging && data.paging.after ? data.paging.after : null]: an
    empty string is falsy *)
Definition next_cursor (d : media_data) : option string :=
  match data_after d with
  | Some a => if String.eqb a EmptyString then None else Some a
  | None => None
  end.

Definition error_text (message : string) : string := ("Error loading media: " ++ message)%string.

(** [fetchMedia()] once the response has settled.  The [finally] hides the
    loading indicator on both paths. *)
Definition fetchMedia (s : mb_state) (resp : media_response) : mb_state :=
  (* loading.hidden = false; loadMoreBtn.hidden = true *)
  let s0 := mkState (allItems s) (afterCursor s) (activeFilter s) (grid s) (emptyHidden s) true false in
  let fail msg := mkState (allItems s0) (afterCursor s0) (activeFilter s0) (GridError (error_text msg))
                          (emptyHidden s0) (loadMoreHidden s0) true in
  match resp with
  | MediaNetError msg => fail msg
  | MediaHttp false statusText _ => fail statusText
  | MediaHttp true _ (JsonError msg) => fail msg
  | MediaHttp true _ (JsonOk d) =>
      let items := match data_items d with Some l => l | None => [] end in
      let cursor := next_cursor d in
      let s1 := mkState (allItems s0 ++ items) cursor (activeFilter s0) (grid s0) (emptyHidden s0)
                        (match cursor with Some _ => false | None => true end) (loadingHidden s0) in
      let s2 := renderGrid s1 in
      mkState (allItems s2) (afterCursor s2) (activeFilter s2) (grid s2) (emptyHidden s2)
              (loadMoreHidden s2) true
  end.

(** the state [openMediaBrowser] starts from, before its initial fetch *)
Definition initial_state (filterType : option string) : mb_state :=
  mkState [] None (match filterType with Some f => if String.eqb f EmptyString then "all" else f | None => "all" end)
          (GridItems []) false true false.

(** the items a successful response adds *)
Definition page_items (resp : media_response) : list media_item :=
  match resp with
  | MediaHttp true _ (JsonOk d) => match data_items d with Some l => l | None => [] end
  | _ => []
  end.

Definition page_ok (resp : media_response) : bool :=
  match resp with
  | MediaHttp true _ (JsonOk _) => true
  | _ => false
  end.

(** a run of [fetchMedia]: the initial fetch, then one per "Load more" *)
Definition fetch_pages (s : mb_state) (resps : list media_response) : mb_state :=
  fold_left fetchMedia resps s.

End MediaBrowser.

(** the [file-input] component ([FileInputFieldController]) *)
Module FileInput.

(** [browseMedia()]'s choice of [filterType] from the [accept] attribute of
    the file input ([None] when the attribute or the input is missing) *)
Definition filterType_of_accept (accept : option string) : string :=
  match accept with
  | Some a =>
      if starts_with "image/" a then "photo"
      else if starts_with "audio/" a then "audio"
      else if starts_with "video/" a then "video"
      else "all"
  | None => "all"
  end.

(** [_mediaBrowserOpen], the number of media-browser overlays in the
    document, the value of the path input and the filter the last opened
    browser started with *)
Record fi_state := mkFi {
  mediaBrowserOpen : bool;
  overlays : nat;
  pathValue : string;
  lastFilter : option string
}.

Inductive fi_event :=
| Browse (accept : option string)  (* a click on "Browse media" *)
| SelectItem (url : string)        (* a click on a tile: [onSelect(url)], then [close()] *)
| Dismiss.                         (* the close button, a click on the overlay or Escape: [close()] *)

(** [close()] of the open browser: the overlay is removed, then [onClose()]
    clears [_mediaBrowserOpen] *)
Definition close_browser (s : fi_state) : fi_state :=
  mkFi false (pred (overlays s)) (pathValue s) (lastFilter s).

Definition fi_step (s : fi_state) (e : fi_event) : fi_state :=
  match e with
  | Browse accept =>
      if mediaBrowserOpen s then s
      else mkFi true (S (overlays s)) (pathValue s) (Some (filterType_of_accept accept))
  | SelectItem url =>
      match overlays s with
      | O => s
      | S _ => close_browser (mkFi (mediaBrowserOpen s) (overlays s) url (lastFilter s))
      end
  | Dismiss =>
      match overlays s with
      | O => s
      | S _ => close_browser s
      end
  end.

Definition fi_run (s : fi_state) (es : list fi_event) : fi_state := fold_left fi_step es s.

(** the [keydown] listener of the upload button: whether the default is
    prevented and how many clicks it triggers *)
Definition on_keydown (key : string) : bool * nat :=
  (existsb (String.eqb key) ["Spacebar"; " "; "Enter"],
   if String.eqb key "Enter" then 1 else 0).

(** the [keyup] listener *)
Definition on_keyup (key : string) : bool * nat :=
  if existsb (String.eqb key) ["Spacebar"; " "] then (true, 1) else (false, 0).

Record upload_state := mkUpload {
  value : string;
  readOnly : bool;
  progressHidden : bool;
  fieldError : bool;              (* class [field--error] *)
  errorMessageText : option string;
  describedBy : option string     (* [aria-describedby] of the [.input] *)
}.

(** how the upload settles: [fetch] rejects, or answers; [error_message] is
    the message of [IndiekitError.fromFetch(response)] *)
Inductive upload_response :=
| UploadNetError (message : string)
| UploadResp (ok : bool) (location : option string) (error_message : string).

(** [showErrorMessage(message)]; [errorId] is the id of the cloned error
    message, which comes from the template *)
Definition showErrorMessage (s : upload_state) (errorId message : string) : upload_state :=
  let inputAttributes := match describedBy s with Some a => a | None => EmptyString end in
  mkUpload (value s) (readOnly s) (progressHidden s) true (Some message)
           (Some (inputAttributes ++ " " ++ errorId)%string).

(** [fetch(event)] of the component, once the upload has settled *)
Definition upload (s : upload_state) (errorId : string) (resp : upload_response) : upload_state :=
  (* $uploadProgress.hidden = false; $fileInputPath.readOnly = true *)
  let s0 := mkUpload (value s) true false (fieldError s) (errorMessageText s) (describedBy s) in
  let failed message :=
    let s1 := showErrorMessage s0 errorId message in
    mkUpload (value s1) false true (fieldError s1) (errorMessageText s1) (describedBy s1) in
  match resp with
  | UploadNetError message => failed message
  | UploadResp false _ message => failed message
  | UploadResp true location _ =>
      (* [value = null] empties the input *)
      mkUpload (match location with Some l => l | None => EmptyString end) false true
               (fieldError s0) (errorMessageText s0) (describedBy s0)
  end.

End FileInput.

(** ** Properties of the media browser *)

Module MediaBrowserFacts.
Import MediaBrowser.

(** The filter shows every item under "all" and otherwise exactly the items
    whose media type equals it, in their order; it distributes over the
    pages loaded, and an item without a media type shows only under
    "all". *)
Theorem getFilteredItems_spec (f : string) (l1 l2 : list media_item) :
  getFilteredItems f (l1 ++ l2) = getFilteredItems f l1 ++ getFilteredItems f l2 /\
  (forall it, In it (getFilteredItems f l1) <-> In it l1 /\ (f = "all" \/ media_type_of it = f)) /\
  (forall it, f <> "all" -> f <> EmptyString -> item_media_type it = None ->
     ~ In it (getFilteredItems f l1)).
Proof.
  unfold getFilteredItems. destruct (String.eqb f "all") eqn:Ef.
  - apply String.eqb_eq in Ef. subst f. split; [reflexivity|]. split; [tauto|].
    intros it H. contradiction.
  - assert (Hf : f <> "all") by (intros ->; discriminate).
    split; [apply filter_app|]. split.
    + intros it. rewrite filter_In, String.eqb_eq. split; [tauto|].
      intros [Hin [E | E]]; [contradiction | split; assumption].
    + intros it _ Hne Hnone Hin. apply filter_In in Hin. destruct Hin as [_ E].
      unfold media_type_of in E. rewrite Hnone in E. apply String.eqb_eq in E. congruence.
Qed.

Lemma fetch_pages_ok (resps : list media_response) :
  forall s, Forall (fun r => page_ok r = true) resps ->
  allItems (fetch_pages s resps) = allItems s ++ List.concat (map page_items resps) /\
  activeFilter (fetch_pages s resps) = activeFilter s.
Proof.
  induction resps as [|r rs IH]; intros s Hok; simpl.
  - rewrite app_nil_r. split; reflexivity.
  - inversion Hok as [|? ? Hr Hrs]; subst.
    destruct r as [m | [|] st [d | m]]; try discriminate.
    unfold fetch_pages in *. cbn [fold_left].
    destruct (IH (fetchMedia s (MediaHttp true st (JsonOk d))) Hrs) as [H1 H2].
    rewrite H1, H2. simpl. rewrite app_assoc. split; reflexivity.
Qed.

(** After the initial fetch and the "Load more" fetches, all successful,
    the browser holds the items of every page in the order they came,
    shows the current filter of them, keeps the cursor of the last page,
    shows "Load more" exactly when that cursor is set, and hides the
    loading indicator. *)
Theorem fetch_pages_accumulate (s : mb_state) (resps : list media_response) (txt : string) (d : media_data)
  (Hok : Forall (fun r => page_ok r = true) resps) :
  let s' := fetch_pages s (resps ++ [MediaHttp true txt (JsonOk d)]) in
  allItems s' = allItems s ++ List.concat (map page_items resps) ++ page_items (MediaHttp true txt (JsonOk d)) /\
  grid s' = GridItems (getFilteredItems (activeFilter s) (allItems s')) /\
  afterCursor s' = next_cursor d /\
  loadMoreHidden s' = match next_cursor d with Some _ => false | None => true end /\
  loadingHidden s' = true.
Proof.
  intros s'. unfold s', fetch_pages. rewrite fold_left_app. fold (fetch_pages s resps).
  destruct (fetch_pages_ok resps s Hok) as [H1 H2].
  simpl. rewrite H1, H2, app_assoc. repeat split; reflexivity.
Qed.

Lemma fetch_pages_accumulate_witness :
  let p1 := MediaHttp true "OK" (JsonOk (mkData (Some [mkItem "/a.jpg" (Some "photo")]) (Some "c1"))) in
  let d2 := mkData (Some [mkItem "/b.mp3" (Some "audio")]) None in
  let s' := fetch_pages (initial_state (Some "photo")) ([p1] ++ [MediaHttp true "OK" (JsonOk d2)]) in
  allItems s' = allItems (initial_state (Some "photo")) ++ List.concat (map page_items [p1]) ++
                page_items (MediaHttp true "OK" (JsonOk d2)) /\
  grid s' = GridItems (getFilteredItems (activeFilter (initial_state (Some "photo"))) (allItems s')) /\
  afterCursor s' = next_cursor d2 /\
  loadMoreHidden s' = match next_cursor d2 with Some _ => false | None => true end /\
  loadingHidden s' = true.
Proof.
  intros p1 d2. apply (fetch_pages_accumulate (initial_state (Some "photo")) [p1] "OK" d2).
  repeat constructor.
Defined.

(** A failed fetch (network error, non-2xx status or unparsable body) keeps
    the items and the cursor, shows the error text in the grid, hides the
    loading indicator, and leaves "Load more" hidden: the browser offers no
    further page after an error. *)
Theorem fetchMedia_failure (s : mb_state) (resp : media_response)
  (Hfail : page_ok resp = false) :
  let s' := fetchMedia s resp in
  allItems s' = allItems s /\ afterCursor s' = afterCursor s /\
  (exists msg, grid s' = GridError (error_text msg)) /\
  loadMoreHidden s' = true /\ loadingHidden s' = true.
Proof.
  destruct resp as [m | [|] st [d | m]]; try discriminate; simpl;
    (split; [reflexivity | split; [reflexivity | split; [eexists; reflexivity | split; reflexivity]]]).
Qed.

Lemma fetchMedia_failure_witness :
  let s' := fetchMedia (initial_state None) (MediaHttp false "Unauthorized" (JsonError "unused")) in
  allItems s' = allItems (initial_state None) /\ afterCursor s' = afterCursor (initial_state None) /\
  (exists msg, grid s' = GridError (error_text msg)) /\
  loadMoreHidden s' = true /\ loadingHidden s' = true.
Proof.
  exact (fetchMedia_failure (initial_state None) (MediaHttp false "Unauthorized" (JsonError "unused")) eq_refl).
Defined.

Lemma params_get_filter (k k' : string) (ps : list (string * string)) :
  k' <> k -> params_get k' (filter (fun p => negb (String.eqb (fst p) k)) ps) = params_get k' ps.
Proof.
  intros Hk. induction ps as [|[a v] ps IH]; simpl; [reflexivity|].
  destruct (String.eqb a k) eqn:Eak; simpl.
  - apply String.eqb_eq in Eak; subst a.
    destruct (String.eqb k k') eqn:E; [apply String.eqb_eq in E; congruence | exact IH].
  - destruct (String.eqb a k'); [reflexivity | exact IH].
Qed.

Lemma params_get_set_same (k v : string) (ps : list (string * string)) :
  params_get k (params_set k v ps) = Some v.
Proof.
  induction ps as [|[a w] ps IH]; simpl; [rewrite String.eqb_refl; reflexivity|].
  destruct (String.eqb a k) eqn:E; simpl; [rewrite String.eqb_refl; reflexivity|].
  rewrite E. exact IH.
Qed.

Lemma params_get_set_other (k k' v : string) (ps : list (string * string)) :
  k' <> k -> params_get k' (params_set k v ps) = params_get k' ps.
Proof.
  intros Hk. induction ps as [|[a w] ps IH]; simpl.
  - destruct (String.eqb k k') eqn:E; [apply String.eqb_eq in E; congruence | reflexivity].
  - destruct (String.eqb a k) eqn:E; simpl.
    + apply String.eqb_eq in E; subst a.
      destruct (String.eqb k k') eqn:E'; [apply String.eqb_eq in E'; congruence|].
      apply params_get_filter. exact Hk.
    + destruct (String.eqb a k'); [reflexivity | exact IH].
Qed.

(** Whatever query the endpoint already has, the request of [fetchMedia]
    reads [q=source] and [limit=20]; it reads [after=c] when the cursor is
    [c], and without a cursor the endpoint's own [after] (if any) is left
    as it was. *)
Theorem request_params_spec (endpoint_params : list (string * string)) (cursor : option string) :
  params_get "q" (request_params endpoint_params cursor) = Some "source" /\
  params_get "limit" (request_params endpoint_params cursor) = Some "20" /\
  match cursor with
  | Some c => c <> EmptyString -> params_get "after" (request_params endpoint_params cursor) = Some c
  | None => params_get "after" (request_params endpoint_params cursor) = params_get "after" endpoint_params
  end.
Proof.
  unfold request_params.
  assert (Hbase : forall ps, params_get "q" ps = Some "source" -> params_get "limit" ps = Some "20" ->
            forall c, params_get "q" (params_set "after" c ps) = Some "source" /\
                      params_get "limit" (params_set "after" c ps) = Some "20").
  { intros ps Hq Hl c. rewrite !params_get_set_other by discriminate. split; assumption. }
  assert (Hq : params_get "q" (params_set "limit" "20" (params_set "q" "source" endpoint_params)) = Some "source")
    by (rewrite params_get_set_other by discriminate; apply params_get_set_same).
  assert (Hl : params_get "limit" (params_set "limit" "20" (params_set "q" "source" endpoint_params)) = Some "20")
    by apply params_get_set_same.
  destruct cursor as [c|].
  - destruct (String.eqb c EmptyString) eqn:Ec.
    + split; [exact Hq | split; [exact Hl|]]. intros Hne. apply String.eqb_eq in Ec. contradiction.
    + destruct (Hbase _ Hq Hl c) as [Hq' Hl']. split; [exact Hq' | split; [exact Hl'|]].
      intros _. apply params_get_set_same.
  - split; [exact Hq | split; [exact Hl|]].
    rewrite !params_get_set_other by discriminate. reflexivity.
Qed.

Lemma request_params_spec_witness :
  "c1" <> EmptyString /\
  params_get "after" (request_params [("after", "old"); ("q", "x")] (Some "c1")) = Some "c1".
Proof.
  split; [discriminate|].
  destruct (request_params_spec [("after", "old"); ("q", "x")] (Some "c1")) as [_ [_ H]].
  apply H. discriminate.
Defined.

End MediaBrowserFacts.

(** ** Properties of the file input *)

Module FileInputFacts.
Import FileInput.

(** At most one media browser is open at a time: from a state where the
    flag [_mediaBrowserOpen] matches the overlays in the document, every
    sequence of clicks keeps one overlay while the flag is set and none
    while it is clear. *)
Theorem browse_single_overlay (s : fi_state) (es : list fi_event)
  (Hinv : overlays s = if mediaBrowserOpen s then 1 else 0) :
  overlays (fi_run s es) = if mediaBrowserOpen (fi_run s es) then 1 else 0.
Proof.
  revert s Hinv. induction es as [|e es IH]; intros s Hinv; simpl; [exact Hinv|].
  apply IH. destruct (mediaBrowserOpen s) eqn:Eo;
    destruct e as [accept | url |]; simpl; rewrite ?Eo, ?Hinv; simpl; try reflexivity.
  all: rewrite ?Hinv, ?Eo; reflexivity.
Qed.

Lemma browse_single_overlay_witness :
  let s := mkFi false 0 "/old.jpg" None in
  let es := [Browse (Some "image/*"); Browse None; Dismiss; Browse None] in
  overlays (fi_run s es) = if mediaBrowserOpen (fi_run s es) then 1 else 0.
Proof.
  intros s es. apply (browse_single_overlay s es). reflexivity.
Defined.

(** With no browser open, a click on "Browse media" opens one whose filter
    follows the [accept] attribute; further clicks while it is open are
    ignored; choosing an item writes its URL into the path input and
    closes the browser, after which it can be opened again. *)
Theorem browse_then_select (s : fi_state) (a : option string) (extra : list (option string)) (url : string)
  (Hclosed : mediaBrowserOpen s = false) :
  fi_run s ([Browse a] ++ map Browse extra ++ [SelectItem url]) =
    mkFi false (overlays s) url (Some (filterType_of_accept a)).
Proof.
  unfold fi_run. rewrite app_assoc, fold_left_app, fold_left_app.
  cbn [fold_left fi_step]. rewrite Hclosed.
  assert (Hstay : forall l (t : fi_state), mediaBrowserOpen t = true ->
            fold_left fi_step (map Browse l) t = t).
  { induction l as [|b l IHl]; intros t Ht; simpl; [reflexivity|].
    rewrite Ht. apply IHl. exact Ht. }
  rewrite Hstay by reflexivity. reflexivity.
Qed.

Lemma browse_then_select_witness :
  fi_run (mkFi false 0 EmptyString None) ([Browse (Some "audio/mpeg")] ++ map Browse [None] ++ [SelectItem "/media/a.mp3"]) =
    mkFi false 0 "/media/a.mp3" (Some "audio").
Proof. exact (browse_then_select (mkFi false 0 EmptyString None) (Some "audio/mpeg") [None] "/media/a.mp3" eq_refl). Defined.

(** A full key press (keydown, then keyup) on the upload button clicks it
    exactly once for Enter, Space or "Spacebar" and never for another key;
    for those three keys the keydown's default action is prevented. *)
Theorem key_press_clicks_once (key : string) :
  snd (on_keydown key) + snd (on_keyup key) =
    (if existsb (String.eqb key) ["Enter"; " "; "Spacebar"] then 1 else 0) /\
  fst (on_keydown key) = existsb (String.eqb key) ["Enter"; " "; "Spacebar"].
Proof.
  unfold on_keydown, on_keyup.
  destruct (String.eqb_spec key "Enter") as [->|n1]; [split; reflexivity|].
  destruct (String.eqb_spec key " ") as [->|n2]; [split; reflexivity|].
  destruct (String.eqb_spec key "Spacebar") as [->|n3]; [split; reflexivity|].
  apply String.eqb_neq in n1, n2, n3. simpl. rewrite n1, n2, n3. split; reflexivity.
Qed.

(** However the upload settles, the path input is editable again and the
    progress indicator hidden; on a 2xx answer the input takes the
    [Location] header (empty when there is none), otherwise it keeps its
    value and the field is marked as in error with a message. *)
Theorem upload_settles (s : upload_state) (errorId : string) (resp : upload_response) :
  let s' := upload s errorId resp in
  readOnly s' = false /\ progressHidden s' = true /\
  match resp with
  | UploadResp true location _ =>
      value s' = match location with Some l => l | None => EmptyString end /\
      fieldError s' = fieldError s /\ describedBy s' = describedBy s
  | _ => value s' = value s /\ fieldError s' = true /\ exists m, errorMessageText s' = Some m
  end.
Proof.
  destruct resp as [m | [|] loc m]; simpl; repeat split; eauto.
Qed.

Fixpoint repeat_string (n : nat) (s : string) : string :=
  match n with
  | O => EmptyString
  | S n' => (s ++ repeat_string n' s)%string
  end.

Lemma string_app_assoc (a b c : string) : ((a ++ b) ++ c)%string = (a ++ (b ++ c))%string.
Proof. induction a as [|x a IH]; simpl; [reflexivity | rewrite IH; reflexivity]. Qed.

Lemma string_app_nil (s : string) : (s ++ EmptyString)%string = s.
Proof. induction s as [|d s IHs]; simpl; [reflexivity | rewrite IHs; reflexivity]. Qed.

Definition upload_failed (r : upload_response) : Prop :=
  match r with UploadResp true _ _ => False | _ => True end.

(** Every failed upload appends the error message's id to the input's
    [aria-describedby], after a space: after [n] failures on an input that
    had no such attribute, it holds [n] copies of [" " ++ id], starting
    with a space. *)
Theorem failed_uploads_describedBy (s : upload_state) (errorId : string) (rs : list upload_response)
  (Hfail : Forall upload_failed rs) :
  describedBy (fold_left (fun t r => upload t errorId r) rs s) =
    match rs with
    | [] => describedBy s
    | _ => Some ((match describedBy s with Some a => a | None => EmptyString end) ++
                 repeat_string (List.length rs) (" " ++ errorId))%string
    end.
Proof.
  revert s. induction rs as [|r rs IH]; intros s; simpl; [reflexivity|].
  inversion Hfail as [|? ? Hr Hrs]; subst.
  rewrite (IH Hrs). 
  assert (Hd : describedBy (upload s errorId r) =
               Some ((match describedBy s with Some a => a | None => EmptyString end) ++ (" " ++ errorId))%string).
  { destruct r as [m | [|] loc m]; [reflexivity | contradiction | reflexivity]. }
  destruct rs as [|r2 rs']; rewrite Hd.
  - simpl. rewrite string_app_nil. reflexivity.
  - rewrite string_app_assoc. reflexivity.
Qed.

Lemma failed_uploads_describedBy_witness :
  let s := mkUpload "/a.jpg" false true false None (Some "hint") in
  let rs := [UploadNetError "offline"; UploadResp false None "Too large"] in
  Forall upload_failed rs /\
  describedBy (fold_left (fun t r => upload t "err-1" r) rs s) = Some "hint err-1 err-1".
Proof.
  intros s rs. split; [repeat constructor|].
  rewrite (failed_uploads_describedBy s "err-1" rs); [reflexivity|].
  repeat constructor.
Defined.

End FileInputFacts.
